(** * The albums service of rest-tutorial (main.go)

    A shallow embedding of the in-memory albums catalog and of its three use
    case interactors ([getAlbums], [postAlbums], [getAlbumByID]), together
    with the request pipeline that the web framework puts in front of them
    (validation of the JSON body against the schema declared by the field
    tags of [album], decoding, mapping of statuses to HTTP codes).

    The package level variable [albums] of main.go is the only state of the
    program: every interactor is a function from the catalog before the call
    to a result and the catalog after it. *)

From Stdlib Require Import List String Ascii Bool Arith ZArith Lia.
From Stdlib Require Import PrimFloat.
From Stdlib Require Import Permutation.
Import ListNotations.

Set Warnings "-inexact-float,-register-all".

Local Open Scope string_scope.
Local Open Scope list_scope.

(** ** Data model (main.go, lines 16-29) *)

(** [type album struct], a [float64] being a binary64 value. *)
Record album : Type := mkAlbum {
  ID : string;
  Title : string;
  Artist : string;
  Price : float
}.

(** The zero value [album{}] that the framework hands to the decoder. *)
Definition album_zero : album :=
  {| ID := ""; Title := ""; Artist := ""; Price := 0%float |}.

(** [var albums = []album{...}]: the catalog at process start. *)
Definition albums : list album :=
  [ {| ID := "1"; Title := "Blue Train"; Artist := "John Coltrane";
       Price := 56.99%float |};
    {| ID := "2"; Title := "Jeru"; Artist := "Gerry Mulligan";
       Price := 17.99%float |};
    {| ID := "3"; Title := "Sarah Vaughan and Clifford Brown";
       Artist := "Sarah Vaughan"; Price := 39.99%float |} ].

(** ** Statuses and errors (package usecase/status, as used by main.go) *)

Inductive Status : Type :=
  | InvalidArgument
  | NotFound
  | AlreadyExists.

(** An [error] value as main.go builds it: a bare status code
    ([return status.AlreadyExists]) or a message wrapped with a status
    ([status.Wrap(errors.New(..), status.NotFound)]). *)
Inductive error : Type :=
  | Code (s : Status)
  | Wrap (msg : string) (s : Status).

Definition statusOf (e : error) : Status :=
  match e with
  | Code s => s
  | Wrap _ s => s
  end.

(** Modelled from the spec: the HTTP code the framework answers with for each
    status (the mapping lives in the swaggest packages, outside main.go):
    bad input is 400, not found is 404, already exists is 409. *)
Definition HTTPStatus (s : Status) : Z :=
  match s with
  | InvalidArgument => 400
  | NotFound => 404
  | AlreadyExists => 409
  end%Z.

(** ** Interactors *)

(** What one call of an interact function leaves behind: the returned
    [error] (or the value written through [output]) and the catalog. *)
Inductive result (A : Type) : Type :=
  | Ok (out : A)
  | Err (e : error).
Arguments Ok {A} out.
Arguments Err {A} e.

Definition interact (A : Type) : Type := list album -> result A * list album.

(** [getAlbums] (lines 50-59): [*out = albums; return nil]. *)
Definition getAlbums : interact (list album) :=
  fun catalog => (Ok catalog, catalog).

(** The uniqueness loop of [postAlbums] (lines 67-71): the first album whose
    [ID] equals [in.ID] makes the function return [status.AlreadyExists]. *)
Fixpoint checkUnique (rest : list album) (in_ : album) : option error :=
  match rest with
  | [] => None
  | a :: rest' =>
      if String.eqb a.(ID) in_.(ID) then Some (Code AlreadyExists)
      else checkUnique rest' in_
  end.

(** [postAlbums] (lines 61-83). *)
Definition postAlbums (in_ : album) : interact album :=
  fun catalog =>
    match checkUnique catalog in_ with
    | Some e => (Err e, catalog)
    | None => (Ok in_, catalog ++ [in_])
    end.

(** [type getAlbumByIDInput struct] (lines 86-88). *)
Record getAlbumByIDInput : Type := mkGetAlbumByIDInput {
  pathID : string
}.

(** The lookup loop of [getAlbumByID] (lines 94-100). *)
Fixpoint lookupLoop (rest : list album) (in_ : getAlbumByIDInput)
  : result album :=
  match rest with
  | [] => Err (Wrap "album not found" NotFound)
  | a :: rest' =>
      if String.eqb a.(ID) in_.(pathID) then Ok a
      else lookupLoop rest' in_
  end.

(** [getAlbumByID] (lines 85-106). *)
Definition getAlbumByID (in_ : getAlbumByIDInput) : interact album :=
  fun catalog => (lookupLoop catalog in_, catalog).

(** ** Request bodies and the schema declared by the field tags *)

(** A parsed JSON document. *)
Inductive json : Type :=
  | JNull
  | JBool (b : bool)
  | JNumber (x : float)
  | JString (s : string)
  | JArray (items : list json)
  | JObject (members : list (string * json)).

(** The value of member [k] of an object; of two members with the same name
    the later one is the one seen. *)
Fixpoint member (k : string) (members : list (string * json)) : option json :=
  match members with
  | [] => None
  | (k', v) :: rest =>
      match member k rest with
      | Some v' => Some v'
      | None => if String.eqb k' k then Some v else None
      end
  end.

Inductive goType : Type :=
  | GoString
  | GoFloat64.

(** What the tags of one struct field declare ([description] and
    [omitempty] play no part in validation or decoding and are left out). *)
Record field : Type := mkField {
  name : string;
  typ : goType;
  required : bool;
  minLength : option nat;
  minimum : option float
}.

(** The four fields of [album], tag by tag (main.go, lines 18-21). *)
Definition ID_field : field :=
  {| name := "id"; typ := GoString; required := true;
     minLength := Some 1; minimum := None |}.

Definition Title_field : field :=
  {| name := "title"; typ := GoString; required := true;
     minLength := None; minimum := None |}.

Definition Artist_field : field :=
  {| name := "artist"; typ := GoString; required := false;
     minLength := None; minimum := None |}.

Definition Price_field : field :=
  {| name := "price"; typ := GoFloat64; required := false;
     minLength := None; minimum := Some 0%float |}.

Definition album_fields : list field :=
  [ID_field; Title_field; Artist_field; Price_field].

(** Modelled from the spec: how the framework (swaggest/rest with its JSON
    Schema validator, not part of main.go) reads the tags: a property has the
    JSON type of its Go type, [minLength] is a minimum string length,
    [minimum] a numeric minimum (a number below it is refused), [required]
    makes absence a failure, and an absent property that is not required
    passes. *)
Definition validValue (f : field) (v : json) : bool :=
  match f.(typ), v with
  | GoString, JString s =>
      match f.(minLength) with
      | Some n => Nat.leb n (String.length s)
      | None => true
      end
  | GoFloat64, JNumber x =>
      match f.(minimum) with
      | Some m => negb (x <? m)%float
      | None => true
      end
  | _, _ => false
  end.

Definition validField (f : field) (members : list (string * json)) : bool :=
  match member f.(name) members with
  | None => negb f.(required)
  | Some v => validValue f v
  end.

Definition validateBody (body : json) : bool :=
  match body with
  | JObject members => forallb (fun f => validField f members) album_fields
  | _ => false
  end.

(** Modelled from the spec: decoding of a body into the zero value of
    [album]: a property that is present with the type of its field is
    stored, every other field keeps its zero value. *)
Definition decodeString (zero : string) (v : option json) : string :=
  match v with
  | Some (JString s) => s
  | _ => zero
  end.

Definition decodeFloat64 (zero : float) (v : option json) : float :=
  match v with
  | Some (JNumber x) => x
  | _ => zero
  end.

Definition decodeAlbum (body : json) : album :=
  match body with
  | JObject members =>
      {| ID := decodeString album_zero.(ID) (member ID_field.(name) members);
         Title :=
           decodeString album_zero.(Title) (member Title_field.(name) members);
         Artist :=
           decodeString album_zero.(Artist)
             (member Artist_field.(name) members);
         Price :=
           decodeFloat64 album_zero.(Price)
             (member Price_field.(name) members) |}
  | _ => album_zero
  end.

(** ** The service (routes of [main], lines 38-40) *)

Inductive request : Type :=
  | GET_albums
  | GET_albums_id (id : string)
  | POST_albums (body : json).

Inductive payload : Type :=
  | Albums (l : list album)
  | Album (a : album)
  | ErrResponse (e : error).

Record response : Type := mkResponse {
  code : Z;
  content : payload
}.

Definition StatusOK : Z := 200.
Definition StatusCreated : Z := 201.

Definition failure (e : error) : response :=
  {| code := HTTPStatus (statusOf e); content := ErrResponse e |}.

(** One use case mounted on a route: the success code of the route on a
    [nil] error, the code of the error's status otherwise. *)
Definition respond {A : Type} (success : Z) (wrap : A -> payload)
  (r : result A * list album) : response * list album :=
  match r with
  | (Ok out, catalog) => ({| code := success; content := wrap out |}, catalog)
  | (Err e, catalog) => (failure e, catalog)
  end.

Definition serve (r : request) (catalog : list album)
  : response * list album :=
  match r with
  | GET_albums => respond StatusOK Albums (getAlbums catalog)
  | GET_albums_id id =>
      respond StatusOK Album (getAlbumByID {| pathID := id |} catalog)
  | POST_albums body =>
      if validateBody body
      then respond StatusCreated Album (postAlbums (decodeAlbum body) catalog)
      else (failure (Code InvalidArgument), catalog)
  end.

(** The catalog after a sequence of requests, served one after the other. *)
Fixpoint run (rs : list request) (catalog : list album) : list album :=
  match rs with
  | [] => catalog
  | r :: rs' => run rs' (snd (serve r catalog))
  end.

(** The responses to a sequence of requests, in the order they are served. *)
Fixpoint responses (rs : list request) (catalog : list album)
  : list response :=
  match rs with
  | [] => []
  | r :: rs' =>
      fst (serve r catalog) :: responses rs' (snd (serve r catalog))
  end.

(** The albums echoed by the [201 Created] responses of a run. *)
Fixpoint createdBy (resps : list response) : list album :=
  match resps with
  | [] => []
  | {| code := c; content := Album a |} :: rest =>
      if Z.eqb c StatusCreated then a :: createdBy rest else createdBy rest
  | _ :: rest => createdBy rest
  end.

(** Property [k] of a body, when the body is an object that has it. *)
Definition property (k : string) (body : json) : option json :=
  match body with
  | JObject members => member k members
  | _ => None
  end.

(** The response to a request that fails validation. *)
Definition badInput : response :=
  {| code := 400; content := ErrResponse (Code InvalidArgument) |}.

(** ** Sequences of interactor calls *)

(** One call of one of the three interactors, with its input. *)
Inductive call : Type :=
  | CallGetAlbums
  | CallGetAlbumByID (in_ : getAlbumByIDInput)
  | CallPostAlbums (in_ : album).

(** The catalog that a call leaves behind. *)
Definition after (c : call) (catalog : list album) : list album :=
  match c with
  | CallGetAlbums => snd (getAlbums catalog)
  | CallGetAlbumByID in_ => snd (getAlbumByID in_ catalog)
  | CallPostAlbums in_ => snd (postAlbums in_ catalog)
  end.

Fixpoint afterAll (cs : list call) (catalog : list album) : list album :=
  match cs with
  | [] => catalog
  | c :: cs' => afterAll cs' (after c catalog)
  end.

(** ** Sample albums and request bodies *)

(** A second album with the id of a seed album. *)
Definition jeru_again : album :=
  {| ID := "2"; Title := "Jeru (reissue)"; Artist := ""; Price := 5%float |}.

(** The seed album with id 2. *)
Definition jeru : album :=
  {| ID := "2"; Title := "Jeru"; Artist := "Gerry Mulligan";
     Price := 17.99%float |}.

(** The album of the scenario: id 4, not in the seed catalog. *)
Definition kind_of_blue : album :=
  {| ID := "4"; Title := "Kind of Blue"; Artist := "Miles Davis";
     Price := 49.99%float |}.

Definition kind_of_blue_body : json :=
  JObject [("id", JString "4"); ("title", JString "Kind of Blue");
           ("artist", JString "Miles Davis"); ("price", JNumber 49.99%float)].

(** The same album with the empty string as its title. *)
Definition untitled : album :=
  {| ID := "4"; Title := ""; Artist := "Miles Davis"; Price := 49.99%float |}.

Definition empty_title_body : json :=
  JObject [("id", JString "4"); ("title", JString "");
           ("artist", JString "Miles Davis"); ("price", JNumber 49.99%float)].

(** Bodies without [id], with an empty [id], with a negative [price] and
    without [price]. *)
Definition no_id_body : json :=
  JObject [("title", JString "Kind of Blue"); ("price", JNumber 49.99%float)].

Definition empty_id_body : json :=
  JObject [("id", JString ""); ("title", JString "Kind of Blue")].



(** An album with an id that neither the seed catalog nor the scenario
    uses. *)
Definition giant_steps : album :=
  {| ID := "5"; Title := "Giant Steps"; Artist := "John Coltrane";
     Price := 24.5%float |}.

(** ** Use cases (what [usecase.NewIOI] and the setters build) *)

(** A use case: its interact function and what [SetTags] and
    [SetExpectedErrors] were given (nothing when the setter is not called). *)
Record Interactor (I O : Type) : Type := mkInteractor {
  Interact : I -> interact O;
  Tags : list string;
  ExpectedErrors : list Status
}.
Arguments Interact {I O} _ _ _.
Arguments Tags {I O} _.
Arguments ExpectedErrors {I O} _.

(** The value [u] returned by [getAlbums()] (lines 50-59); its input sample
    is [nil]. *)
Definition getAlbums_u : Interactor unit (list album) :=
  {| Interact := fun _ => getAlbums;
     Tags := ["Album"];
     ExpectedErrors := [] |}.

(** The value [u] returned by [postAlbums()] (lines 61-83). *)
Definition postAlbums_u : Interactor album album :=
  {| Interact := postAlbums;
     Tags := ["Album"];
     ExpectedErrors := [AlreadyExists] |}.

(** The value [u] returned by [getAlbumByID()] (lines 85-106). *)
Definition getAlbumByID_u : Interactor getAlbumByIDInput album :=
  {| Interact := getAlbumByID;
     Tags := ["Album"];
     ExpectedErrors := [NotFound] |}.

(** A use case returns only errors it declares, and an error means that the
    catalog was not touched. *)
Definition errors_declared {I O : Type} (u : Interactor I O) : Prop :=
  forall (i : I) (catalog catalog' : list album) (e : error),
    Interact u i catalog = (Err e, catalog') ->
    In (statusOf e) (ExpectedErrors u) /\ catalog' = catalog.

(** Every error a use case declares is one it can return. *)
Definition errors_reachable {I O : Type} (u : Interactor I O) : Prop :=
  forall s, In s (ExpectedErrors u) ->
    exists (i : I) (catalog : list album) (e : error),
      fst (Interact u i catalog) = Err e /\ statusOf e = s.

(** ** Response bodies *)



(** ** The catalog as a Go slice

    [albums] is a slice variable: a header (backing array, length, capacity)
    over an array that [getAlbums] shares with its caller ([*out = albums],
    line 53) and that [append] (line 74) either writes in place or replaces
    by a larger copy. This second model keeps the arrays apart from the
    headers, to relate it to the model above, where a catalog is the list of
    its albums. *)

(** A slice header; the program never reslices, so every slice starts at the
    first element of its array. *)
Record slice : Type := mkSlice {
  array : nat;
  len : nat;
  cap : nat
}.

(** The arrays allocated so far, by address. *)
Definition heap : Type := list (list album).

Record state : Type := mkState {
  arrays : heap;
  albums_var : slice
}.

(** The elements a [range] over the slice visits, in order. *)
Definition elements (h : heap) (s : slice) : list album :=
  firstn s.(len) (nth s.(array) h []).

(** [l[i] = x] on an array (the program only stores below the capacity). *)
Fixpoint store (i : nat) (x : album) (l : list album) {struct l}
  : list album :=
  match l, i with
  | [], _ => []
  | _ :: rest, O => x :: rest
  | y :: rest, S j => y :: store j x rest
  end.

Fixpoint storeIn (addr i : nat) (x : album) (h : heap) {struct h} : heap :=
  match h, addr with
  | [], _ => []
  | a :: rest, O => store i x a :: rest
  | a :: rest, S k => a :: storeIn k i x rest
  end.

(** [append(s, x)]: when the capacity allows, [x] is stored in the array of
    [s] right after its elements; otherwise a new array is allocated that
    holds the elements of [s], then [x], then [slack] spare zero values (how
    many is the choice of the runtime), and the result is a slice of it. *)
Definition slice_append (slack : nat -> nat) (h : heap) (s : slice)
  (x : album) : heap * slice :=
  if Nat.ltb s.(len) s.(cap)
  then (storeIn s.(array) s.(len) x h,
        {| array := s.(array); len := S s.(len); cap := s.(cap) |})
  else (h ++ [elements h s ++ x :: repeat album_zero (slack s.(len))],
        {| array := List.length h; len := S s.(len);
           cap := S s.(len) + slack s.(len) |}).

(** The slice literal of lines 25-29: an array of three albums and a slice
    of length and capacity three over it. *)
Definition init : state :=
  {| arrays := [albums];
     albums_var := {| array := 0; len := 3; cap := 3 |} |}.

(** The three interact functions on the slice. *)
Definition getAlbums_s (st : state) : result slice * state :=
  (Ok st.(albums_var), st).

Definition postAlbums_s (slack : nat -> nat) (in_ : album) (st : state)
  : result album * state :=
  match checkUnique (elements st.(arrays) st.(albums_var)) in_ with
  | Some e => (Err e, st)
  | None =>
      let (h, s) := slice_append slack st.(arrays) st.(albums_var) in_ in
      (Ok in_, {| arrays := h; albums_var := s |})
  end.

Definition getAlbumByID_s (in_ : getAlbumByIDInput) (st : state)
  : result album * state :=
  (lookupLoop (elements st.(arrays) st.(albums_var)) in_, st).

Definition after_s (slack : nat -> nat) (c : call) (st : state) : state :=
  match c with
  | CallGetAlbums => snd (getAlbums_s st)
  | CallGetAlbumByID in_ => snd (getAlbumByID_s in_ st)
  | CallPostAlbums in_ => snd (postAlbums_s slack in_ st)
  end.

Fixpoint afterAll_s (slack : nat -> nat) (cs : list call) (st : state)
  : state :=
  match cs with
  | [] => st
  | c :: cs' => afterAll_s slack cs' (after_s slack c st)
  end.

(** The catalog a state holds: the elements of its slice variable. *)
Definition catalogOf (st : state) : list album :=
  elements st.(arrays) st.(albums_var).

(** A runtime that doubles: as many spare elements as there were albums. *)
Definition doubling (n : nat) : nat := n.

(** The header of the catalog points into the heap, at an array of the
    capacity it claims. *)
Definition wf (st : state) : Prop :=
  (st.(albums_var).(array) < List.length st.(arrays))%nat
  /\ (st.(albums_var).(len) <= st.(albums_var).(cap))%nat
  /\ List.length (nth st.(albums_var).(array) st.(arrays) [])
     = st.(albums_var).(cap).

(** A header handed out earlier: it points into the heap and, when it
    shares its array with the catalog, it is no longer than the catalog. *)
Definition covered (st : state) (snap : slice) : Prop :=
  (snap.(array) < List.length st.(arrays))%nat
  /\ (snap.(array) = st.(albums_var).(array) ->
      (snap.(len) <= st.(albums_var).(len))%nat).

(** * Properties *)

(** ** The two loops *)

Section Loops.

Variable in_ : album.

Lemma checkUnique_error (catalog : list album) (e : error) :
  checkUnique catalog in_ = Some e -> e = Code AlreadyExists.
Proof.
  induction catalog as [|a rest IH]; simpl; [discriminate|].
  destruct (String.eqb (ID a) (ID in_)); [congruence | exact IH].
Qed.

Lemma checkUnique_taken (catalog : list album) :
  (exists a, In a catalog /\ ID a = ID in_) ->
  checkUnique catalog in_ = Some (Code AlreadyExists).
Proof.
  induction catalog as [|a rest IH]; simpl; intros (b & Hin & Hid).
  - contradiction.
  - destruct (String.eqb_spec (ID a) (ID in_)) as [_|Hne]; [reflexivity|].
    apply IH. destruct Hin as [->|Hin]; [contradiction|].
    exists b; split; assumption.
Qed.

Lemma checkUnique_fresh (catalog : list album) :
  (forall a, In a catalog -> ID a <> ID in_) ->
  checkUnique catalog in_ = None.
Proof.
  induction catalog as [|a rest IH]; simpl; intros Hfresh; [reflexivity|].
  destruct (String.eqb_spec (ID a) (ID in_)) as [Heq|_].
  - exfalso. apply (Hfresh a); [left; reflexivity | exact Heq].
  - apply IH. intros b Hb. apply Hfresh. right; exact Hb.
Qed.

Lemma checkUnique_None (catalog : list album) :
  checkUnique catalog in_ = None ->
  forall a, In a catalog -> ID a <> ID in_.
Proof.
  induction catalog as [|a rest IH]; simpl; intros Hnone b Hb.
  - contradiction.
  - destruct (String.eqb_spec (ID a) (ID in_)) as [|Hne]; [discriminate|].
    destruct Hb as [<-|Hb]; [exact Hne | exact (IH Hnone b Hb)].
Qed.

(** An error of the loop is caused by an album of the catalog that has the
    id of the input. *)
Lemma checkUnique_culprit (catalog : list album) (e : error) :
  checkUnique catalog in_ = Some e ->
  exists a, In a catalog /\ ID a = ID in_.
Proof.
  induction catalog as [|a rest IH]; simpl; [discriminate|].
  destruct (String.eqb_spec (ID a) (ID in_)) as [Heq|_]; intros Hloop.
  - exists a. split; [left; reflexivity | exact Heq].
  - destruct (IH Hloop) as (b & Hb & Hid).
    exists b. split; [right; exact Hb | exact Hid].
Qed.

End Loops.

Section Lookup.

Variable id : string.

Let key : getAlbumByIDInput := {| pathID := id |}.

(** The loop stops at the first album with the wanted id. *)
Lemma lookupLoop_first (before after : list album) (a : album) :
  (forall b, In b before -> ID b <> id) ->
  ID a = id ->
  lookupLoop (before ++ a :: after) key = Ok a.
Proof.
  intros Hbefore Ha.
  induction before as [|b rest IH]; simpl.
  - rewrite Ha, String.eqb_refl. reflexivity.
  - destruct (String.eqb_spec (ID b) id) as [Heq|_].
    + exfalso. apply (Hbefore b); [left; reflexivity | exact Heq].
    + apply IH. intros c Hc. apply Hbefore. right; exact Hc.
Qed.

Lemma lookupLoop_absent (catalog : list album) :
  (forall a, In a catalog -> ID a <> id) ->
  lookupLoop catalog key = Err (Wrap "album not found" NotFound).
Proof.
  induction catalog as [|a rest IH]; simpl; intros Habs; [reflexivity|].
  destruct (String.eqb_spec (ID a) id) as [Heq|_].
  - exfalso. apply (Habs a); [left; reflexivity | exact Heq].
  - apply IH. intros b Hb. apply Habs. right; exact Hb.
Qed.

(** Whatever the loop returns, it is a prefix-minimal match or the
    "not found" error. *)
Lemma lookupLoop_cases (catalog : list album) :
  (exists before a after,
      catalog = before ++ a :: after
      /\ (forall b, In b before -> ID b <> id)
      /\ ID a = id
      /\ lookupLoop catalog key = Ok a)
  \/ ((forall a, In a catalog -> ID a <> id)
      /\ lookupLoop catalog key = Err (Wrap "album not found" NotFound)).
Proof.
  induction catalog as [|a rest IH].
  - right. split; [intros a [] | reflexivity].
  - simpl. destruct (String.eqb_spec (ID a) id) as [Heq|Hne].
    + left. exists [], a, rest. repeat split; try assumption.
      intros b [].
    + destruct IH as [(before & b & after & -> & Hbefore & Hb & Hres)
                     | (Habs & Hres)].
      * left. exists (a :: before), b, after. repeat split; try assumption.
        intros c [<-|Hc]; [exact Hne | exact (Hbefore c Hc)].
      * right. split; [|exact Hres].
        intros c [<-|Hc]; [exact Hne | exact (Habs c Hc)].
Qed.

End Lookup.

(** ** Creating an album *)

(** A successful call of [postAlbums] is exactly a call on a fresh id: it
    echoes its input and appends it. *)
Lemma postAlbums_Ok (catalog catalog' : list album) (in_ out : album) :
  postAlbums in_ catalog = (Ok out, catalog') ->
  (forall a, In a catalog -> ID a <> ID in_)
  /\ out = in_ /\ catalog' = catalog ++ [in_].
Proof.
  unfold postAlbums. intros H.
  destruct (checkUnique catalog in_) as [e|] eqn:Hloop; [discriminate|].
  injection H as <- <-.
  repeat split. exact (checkUnique_None in_ catalog Hloop).
Qed.

Lemma postAlbums_fresh (catalog : list album) (in_ : album) :
  (forall a, In a catalog -> ID a <> ID in_) ->
  postAlbums in_ catalog = (Ok in_, catalog ++ [in_]).
Proof.
  intros Hfresh. unfold postAlbums.
  rewrite (checkUnique_fresh in_ catalog Hfresh). reflexivity.
Qed.

(** The only error [postAlbums] can return is [status.AlreadyExists], and it
    leaves the catalog as it was. *)
Lemma postAlbums_Err (catalog catalog' : list album) (in_ : album)
  (e : error) :
  postAlbums in_ catalog = (Err e, catalog') ->
  e = Code AlreadyExists /\ catalog' = catalog.
Proof.
  unfold postAlbums. intros H.
  destruct (checkUnique catalog in_) as [e'|] eqn:Hloop; [|discriminate].
  injection H as <- <-.
  split; [exact (checkUnique_error in_ catalog e' Hloop) | reflexivity].
Qed.

(** C1. For every catalog and every album whose id is the id of an album of
    the catalog, [postAlbums] returns [status.AlreadyExists], which the
    route answers with 409, and the catalog after the call is the catalog
    before it. *)
Theorem postAlbums_duplicate_id (catalog : list album) (in_ : album) :
  (exists a, In a catalog /\ ID a = ID in_) ->
  postAlbums in_ catalog = (Err (Code AlreadyExists), catalog)
  /\ respond StatusCreated Album (postAlbums in_ catalog)
     = ({| code := 409; content := ErrResponse (Code AlreadyExists) |},
        catalog).
Proof.
  intros Htaken.
  assert (postAlbums in_ catalog = (Err (Code AlreadyExists), catalog)) as H.
  { unfold postAlbums. rewrite (checkUnique_taken in_ catalog Htaken).
    reflexivity. }
  split; [exact H | rewrite H; reflexivity].
Qed.

Lemma postAlbums_duplicate_id_witness :
  (exists a, In a albums /\ ID a = ID jeru_again)
  /\ postAlbums jeru_again albums = (Err (Code AlreadyExists), albums)
  /\ respond StatusCreated Album (postAlbums jeru_again albums)
     = ({| code := 409; content := ErrResponse (Code AlreadyExists) |},
        albums).
Proof.
  assert (exists a, In a albums /\ ID a = ID jeru_again) as Htaken.
  { exists (nth 1 albums album_zero). split; [simpl; auto | reflexivity]. }
  split; [exact Htaken | exact (postAlbums_duplicate_id albums jeru_again Htaken)].
Defined.

(** C4. For every catalog and every album whose id no album of the catalog
    has, [postAlbums] appends the album at the end of the catalog and writes
    the input itself to its output; a body that passes validation and
    decodes to that album is answered with 201 and that album. *)
Theorem postAlbums_appends_and_echoes (catalog : list album) (in_ : album) :
  (forall a, In a catalog -> ID a <> ID in_) ->
  postAlbums in_ catalog = (Ok in_, catalog ++ [in_])
  /\ (forall body, validateBody body = true -> decodeAlbum body = in_ ->
      serve (POST_albums body) catalog
      = ({| code := 201; content := Album in_ |}, catalog ++ [in_])).
Proof.
  intros Hfresh. split; [exact (postAlbums_fresh catalog in_ Hfresh)|].
  intros body Hvalid Hdec. simpl. rewrite Hvalid, Hdec.
  rewrite (postAlbums_fresh catalog in_ Hfresh). reflexivity.
Qed.

Lemma seed_ids_not_4 : forall a, In a albums -> ID a <> ID kind_of_blue.
Proof.
  intros a Hin. simpl in Hin.
  destruct Hin as [<-|[<-|[<-|[]]]]; simpl; discriminate.
Defined.

Lemma postAlbums_appends_and_echoes_witness :
  postAlbums kind_of_blue albums = (Ok kind_of_blue, albums ++ [kind_of_blue])
  /\ serve (POST_albums kind_of_blue_body) albums
     = ({| code := 201; content := Album kind_of_blue |},
        albums ++ [kind_of_blue]).
Proof.
  destruct (postAlbums_appends_and_echoes albums kind_of_blue seed_ids_not_4)
    as [Hpost Hserve].
  split; [exact Hpost | apply Hserve; reflexivity].
Defined.

(** C10. A successful call of [postAlbums] makes the catalog one album
    longer and leaves every album that was in it at its position,
    unchanged. *)
Theorem postAlbums_frame (catalog catalog' : list album) (in_ out : album) :
  postAlbums in_ catalog = (Ok out, catalog') ->
  List.length catalog' = S (List.length catalog)
  /\ firstn (List.length catalog) catalog' = catalog
  /\ (forall i a, nth_error catalog i = Some a ->
                  nth_error catalog' i = Some a).
Proof.
  intros Hpost.
  destruct (postAlbums_Ok catalog catalog' in_ out Hpost) as (_ & _ & ->).
  split; [|split].
  - rewrite length_app. simpl. lia.
  - rewrite firstn_app, Nat.sub_diag, firstn_all. simpl. apply app_nil_r.
  - intros i a Hi. rewrite nth_error_app1; [exact Hi|].
    apply nth_error_Some. congruence.
Qed.

Lemma postAlbums_frame_witness :
  postAlbums kind_of_blue albums = (Ok kind_of_blue, albums ++ [kind_of_blue])
  /\ List.length (albums ++ [kind_of_blue]) = S (List.length albums)
  /\ firstn (List.length albums) (albums ++ [kind_of_blue]) = albums
  /\ (forall i a, nth_error albums i = Some a ->
                  nth_error (albums ++ [kind_of_blue]) i = Some a).
Proof.
  split; [reflexivity|].
  apply (postAlbums_frame albums (albums ++ [kind_of_blue])
           kind_of_blue kind_of_blue).
  reflexivity.
Defined.

(** ** Looking an album up *)



(** When ids are pairwise distinct, an id determines its album. *)
Lemma NoDup_ID_inj (catalog : list album) (a b : album) :
  NoDup (map ID catalog) -> In a catalog -> In b catalog ->
  ID a = ID b -> a = b.
Proof.
  induction catalog as [|c rest IH]; simpl; intros Hnd Ha Hb Heq.
  - contradiction.
  - inversion Hnd as [|x l Hnotin Hrest]; subst.
    destruct Ha as [<-|Ha], Hb as [<-|Hb].
    + reflexivity.
    + exfalso. apply Hnotin. rewrite Heq. apply in_map. exact Hb.
    + exfalso. apply Hnotin. rewrite <- Heq. apply in_map. exact Ha.
    + exact (IH Hrest Ha Hb Heq).
Qed.

(** C8. [getAlbumByID] never changes the catalog. If some album of the
    catalog has the given id, it returns an album of the catalog with that
    id (the first one in catalog order, which is the only one when ids are
    pairwise distinct) and the route answers 200; if none has, it returns the
    "not found" error and the route answers 404. *)
Theorem getAlbumByID_spec (catalog : list album) (id : string) :
  snd (getAlbumByID {| pathID := id |} catalog) = catalog
  /\ snd (serve (GET_albums_id id) catalog) = catalog
  /\ (forall a, In a catalog -> ID a = id ->
      exists found before after,
        getAlbumByID {| pathID := id |} catalog = (Ok found, catalog)
        /\ serve (GET_albums_id id) catalog
           = ({| code := 200; content := Album found |}, catalog)
        /\ catalog = before ++ found :: after
        /\ (forall b, In b before -> ID b <> id)
        /\ ID found = id
        /\ (NoDup (map ID catalog) -> found = a))
  /\ ((forall a, In a catalog -> ID a <> id) ->
      getAlbumByID {| pathID := id |} catalog
      = (Err (Wrap "album not found" NotFound), catalog)
      /\ serve (GET_albums_id id) catalog
         = ({| code := 404;
               content := ErrResponse (Wrap "album not found" NotFound) |},
            catalog)).
Proof.
  split; [reflexivity|].
  split; [simpl; unfold getAlbumByID, respond;
          destruct (lookupLoop catalog _); reflexivity|].
  split.
  - intros a Hin Hid.
    destruct (lookupLoop_cases id catalog)
      as [(before & found & after & Hcat & Hbefore & Hfound & Hres)
         | (Habs & _)].
    + exists found, before, after.
      assert (getAlbumByID {| pathID := id |} catalog = (Ok found, catalog))
        as Hget by (unfold getAlbumByID; rewrite Hres; reflexivity).
      split; [exact Hget|].
      split; [unfold serve; rewrite Hget; reflexivity|].
      repeat split; try assumption.
      intros Hnd. apply (NoDup_ID_inj catalog); try assumption.
      * rewrite Hcat. apply in_or_app. right. left. reflexivity.
      * congruence.
    + exfalso. exact (Habs a Hin Hid).
  - intros Habs.
    assert (getAlbumByID {| pathID := id |} catalog
            = (Err (Wrap "album not found" NotFound), catalog)) as Hget.
    { unfold getAlbumByID. rewrite (lookupLoop_absent id catalog Habs).
      reflexivity. }
    split; [exact Hget | unfold serve; rewrite Hget; reflexivity].
Qed.

Lemma albums_NoDup : NoDup (map ID albums).
Proof.
  simpl. repeat constructor; simpl;
    intros H; repeat (destruct H as [H|H]; [discriminate|]); exact H.
Defined.

Lemma jeru_in_albums : In jeru albums.
Proof. simpl. right. left. reflexivity. Defined.

Lemma seed_ids_not_9 : forall a, In a albums -> ID a <> "9".
Proof.
  intros a Hin. simpl in Hin.
  destruct Hin as [<-|[<-|[<-|[]]]]; simpl; discriminate.
Defined.

Lemma getAlbumByID_spec_witness :
  getAlbumByID {| pathID := "2" |} albums = (Ok jeru, albums)
  /\ serve (GET_albums_id "9") albums
     = ({| code := 404;
           content := ErrResponse (Wrap "album not found" NotFound) |},
        albums).
Proof.
  destruct (getAlbumByID_spec albums "2") as (_ & _ & Hfound & _).
  destruct (Hfound jeru jeru_in_albums eq_refl)
    as (found & before & after & Hget & _ & _ & _ & _ & Huniq).
  rewrite (Huniq albums_NoDup) in Hget.
  destruct (getAlbumByID_spec albums "9") as (_ & _ & _ & Habsent).
  split; [exact Hget | exact (proj2 (Habsent seed_ids_not_9))].
Defined.

(** ** Listing *)

(** What serving one request does to the catalog: nothing, unless the
    response is the 201 of a created album, which is then the new last
    album and has an id that was not in the catalog. *)
Lemma serve_effect (r : request) (catalog : list album) :
  (snd (serve r catalog) = catalog
   /\ createdBy [fst (serve r catalog)] = [])
  \/ (exists a,
        (forall b, In b catalog -> ID b <> ID a)
        /\ serve r catalog
           = ({| code := StatusCreated; content := Album a |},
              catalog ++ [a])).
Proof.
  destruct r as [|id|body]; unfold serve.
  - left. split; reflexivity.
  - left. unfold getAlbumByID, respond.
    destruct (lookupLoop catalog _); split; reflexivity.
  - destruct (validateBody body); [|left; split; reflexivity].
    destruct (postAlbums (decodeAlbum body) catalog) as [[out|e] catalog']
      eqn:Hpost.
    + right. exists (decodeAlbum body).
      destruct (postAlbums_Ok _ _ _ _ Hpost) as (Hfresh & -> & ->).
      split; [exact Hfresh | reflexivity].
    + left. destruct (postAlbums_Err _ _ _ _ Hpost) as [-> ->].
      split; reflexivity.
Qed.

(** The catalog after a run is the catalog before it followed by the
    albums created during the run, in the order of their creation. *)
Lemma run_appends (rs : list request) (catalog : list album) :
  run rs catalog = catalog ++ createdBy (responses rs catalog).
Proof.
  revert catalog.
  induction rs as [|r rs' IH]; intros catalog; simpl.
  - symmetry. apply app_nil_r.
  - rewrite IH.
    destruct (serve_effect r catalog) as [[Hsame Hnone] | (a & _ & Hserve)].
    + rewrite Hsame. f_equal.
      simpl in Hnone. destruct (fst (serve r catalog)) as [c [l|a|e]];
        try reflexivity.
      destruct (Z.eqb c StatusCreated); [discriminate | reflexivity].
    + rewrite Hserve. simpl. rewrite <- app_assoc. reflexivity.
Qed.

(** C9. [getAlbums] never returns an error: it returns the whole catalog,
    the empty list for the empty catalog, and leaves the catalog as it is;
    the route answers 200. The catalog is in insertion order: after any run
    of requests it is the initial catalog followed by the created albums in
    the order of their creation. On the seed catalog the result is the three
    seed albums, in their order. *)
Theorem getAlbums_spec :
  (forall catalog, getAlbums catalog = (Ok catalog, catalog))
  /\ getAlbums [] = (Ok [], [])
  /\ (forall catalog,
      serve GET_albums catalog
      = ({| code := 200; content := Albums catalog |}, catalog))
  /\ (forall rs catalog,
      fst (getAlbums (run rs catalog))
      = Ok (catalog ++ createdBy (responses rs catalog)))
  /\ fst (getAlbums albums)
     = Ok [ mkAlbum "1" "Blue Train" "John Coltrane" 56.99%float;
            mkAlbum "2" "Jeru" "Gerry Mulligan" 17.99%float;
            mkAlbum "3" "Sarah Vaughan and Clifford Brown" "Sarah Vaughan"
              39.99%float ].
Proof.
  repeat split.
  intros rs catalog. simpl. rewrite run_appends. reflexivity.
Qed.

(** ** The uniqueness invariant *)

Lemma after_NoDup (c : call) (catalog : list album) :
  NoDup (map ID catalog) -> NoDup (map ID (after c catalog)).
Proof.
  intros Hnd. destruct c as [|in_|in_]; simpl; try exact Hnd.
  destruct (postAlbums in_ catalog) as [[out|e] catalog'] eqn:Hpost; simpl.
  - destruct (postAlbums_Ok _ _ _ _ Hpost) as (Hfresh & _ & ->).
    rewrite map_app. apply NoDup_app.
    + exact Hnd.
    + simpl. constructor; [intros [] | constructor].
    + intros id Hin [<-|[]].
      apply in_map_iff in Hin. destruct Hin as (b & Hb & Hin).
      exact (Hfresh b Hin Hb).
  - destruct (postAlbums_Err _ _ _ _ Hpost) as [_ ->]. exact Hnd.
Qed.

(** A request changes the catalog as one interactor call does, or not at
    all. *)
Lemma serve_after (r : request) (catalog : list album) :
  snd (serve r catalog) = catalog
  \/ exists c, snd (serve r catalog) = after c catalog.
Proof.
  destruct (serve_effect r catalog) as [[Hsame _] | (a & Hfresh & Hserve)].
  - left. exact Hsame.
  - right. exists (CallPostAlbums a). rewrite Hserve. simpl.
    rewrite (postAlbums_fresh catalog a Hfresh). reflexivity.
Qed.

Lemma serve_NoDup (r : request) (catalog : list album) :
  NoDup (map ID catalog) -> NoDup (map ID (snd (serve r catalog))).
Proof.
  intros Hnd.
  destruct (serve_after r catalog) as [-> | [c ->]];
    [exact Hnd | exact (after_NoDup c catalog Hnd)].
Qed.

Lemma afterAll_NoDup (cs : list call) (catalog : list album) :
  NoDup (map ID catalog) -> NoDup (map ID (afterAll cs catalog)).
Proof.
  revert catalog.
  induction cs as [|c cs' IH]; intros catalog Hnd; simpl.
  - exact Hnd.
  - apply IH. apply after_NoDup. exact Hnd.
Qed.

Lemma run_NoDup (rs : list request) (catalog : list album) :
  NoDup (map ID catalog) -> NoDup (map ID (run rs catalog)).
Proof.
  revert catalog.
  induction rs as [|r rs' IH]; intros catalog Hnd; simpl.
  - exact Hnd.
  - apply IH. apply serve_NoDup. exact Hnd.
Qed.

Lemma NoDup_ID_positions (catalog : list album) (i j : nat) (a b : album) :
  NoDup (map ID catalog) ->
  nth_error catalog i = Some a -> nth_error catalog j = Some b ->
  ID a = ID b -> i = j.
Proof.
  intros Hnd Hi Hj Heq.
  apply (proj1 (NoDup_nth_error (map ID catalog)) Hnd).
  - rewrite length_map. apply nth_error_Some. congruence.
  - rewrite !nth_error_map, Hi, Hj. simpl. congruence.
Qed.

(** C5. Starting from the seed catalog, after every sequence of list,
    get-by-id and create operations (calls of the interactors, or requests
    served by the routes) no two albums of the catalog have the same id: two
    positions of the catalog that hold albums with equal ids are the same
    position. *)
Theorem albums_ids_unique :
  (forall cs : list call,
      NoDup (map ID (afterAll cs albums))
      /\ (forall i j a b,
          nth_error (afterAll cs albums) i = Some a ->
          nth_error (afterAll cs albums) j = Some b ->
          ID a = ID b -> i = j))
  /\ (forall rs : list request,
      NoDup (map ID (run rs albums))
      /\ (forall i j a b,
          nth_error (run rs albums) i = Some a ->
          nth_error (run rs albums) j = Some b ->
          ID a = ID b -> i = j)).
Proof.
  split.
  - intros cs.
    assert (NoDup (map ID (afterAll cs albums))) as Hnd
      by (apply afterAll_NoDup; exact albums_NoDup).
    split; [exact Hnd|]. intros i j a b.
    exact (NoDup_ID_positions _ i j a b Hnd).
  - intros rs.
    assert (NoDup (map ID (run rs albums))) as Hnd
      by (apply run_NoDup; exact albums_NoDup).
    split; [exact Hnd|]. intros i j a b.
    exact (NoDup_ID_positions _ i j a b Hnd).
Qed.

(** ** Validation of create requests *)

(** A body that passes validation satisfies the constraints of every field
    of [album]. *)
Lemma validateBody_field (f : field) (body : json) :
  In f album_fields ->
  validateBody body = true ->
  match property f.(name) body with
  | None => f.(required) = false
  | Some v => validValue f v = true
  end.
Proof.
  intros Hf Hvalid.
  destruct body as [| | | | |members]; try discriminate.
  unfold validateBody in Hvalid.
  pose proof (proj1 (forallb_forall _ _) Hvalid f Hf) as Hfield.
  unfold validField in Hfield. unfold property.
  destruct (member (name f) members) as [v|]; [exact Hfield|].
  destruct (required f); [discriminate | reflexivity].
Qed.


Lemma invalid_body_is_bad_input (body : json) (catalog : list album) :
  validateBody body = false ->
  serve (POST_albums body) catalog = (badInput, catalog).
Proof. intros Hinvalid. unfold serve. rewrite Hinvalid. reflexivity. Qed.

(** C6. A create request whose body has no [id], or has the empty string as
    its [id], fails validation: it is answered with 400 and the catalog is
    left as it was. *)
Theorem id_absent_or_empty_is_bad_input (body : json)
  (catalog : list album) :
  property "id" body = None \/ property "id" body = Some (JString "") ->
  validateBody body = false
  /\ serve (POST_albums body) catalog
     = ({| code := 400; content := ErrResponse (Code InvalidArgument) |},
        catalog).
Proof.
  intros Hid.
  assert (validateBody body = false) as Hinvalid.
  { destruct (validateBody body) eqn:Hvalid; [exfalso | reflexivity].
    pose proof (validateBody_field ID_field body (or_introl eq_refl) Hvalid)
      as Hfield.
    change (name ID_field) with "id" in Hfield.
    destruct Hid as [Hid|Hid]; rewrite Hid in Hfield; discriminate. }
  split; [exact Hinvalid | exact (invalid_body_is_bad_input _ _ Hinvalid)].
Qed.

Lemma id_absent_or_empty_is_bad_input_witness :
  (property "id" no_id_body = None
   /\ serve (POST_albums no_id_body) albums = (badInput, albums))
  /\ (property "id" empty_id_body = Some (JString "")
      /\ serve (POST_albums empty_id_body) albums = (badInput, albums)).
Proof.
  split; (split; [reflexivity|]).
  - exact (proj2 (id_absent_or_empty_is_bad_input no_id_body albums
                    (or_introl eq_refl))).
  - exact (proj2 (id_absent_or_empty_is_bad_input empty_id_body albums
                    (or_intror eq_refl))).
Defined.




(** The half of the rule on [title] that the tags do enforce: a body
    without [title] is answered with 400 and changes nothing. *)
Lemma title_absent_is_bad_input (body : json) (catalog : list album) :
  property "title" body = None ->
  validateBody body = false
  /\ serve (POST_albums body) catalog = (badInput, catalog).
Proof.
  intros Habsent.
  assert (validateBody body = false) as Hinvalid.
  { destruct (validateBody body) eqn:Hvalid; [exfalso | reflexivity].
    pose proof (validateBody_field Title_field body
                  (or_intror (or_introl eq_refl)) Hvalid) as Hfield.
    change (name Title_field) with "title" in Hfield.
    rewrite Habsent in Hfield. discriminate. }
  split; [exact Hinvalid | exact (invalid_body_is_bad_input _ _ Hinvalid)].
Qed.

(** The tags of [Title] put no bound on its length: every string, the empty
    one included, is a valid title. *)
Lemma title_any_string_is_valid (s : string) :
  validValue Title_field (JString s) = true.
Proof. reflexivity. Qed.

(** C2. The claim is that a create request whose [title] is absent or the
    empty string is answered with 400 and changes nothing. On the seed
    catalog, the request with id 4 and the empty string as its title passes
    validation, is answered with 201 and appends an album with an empty
    title to the catalog. *)
Theorem empty_title_is_accepted :
  property "title" empty_title_body = Some (JString "")
  /\ validateBody empty_title_body = true
  /\ serve (POST_albums empty_title_body) albums
     = ({| code := 201; content := Album untitled |}, albums ++ [untitled])
  /\ serve (POST_albums empty_title_body) albums <> (badInput, albums).
Proof.
  repeat split. discriminate.
Qed.

(** ** The scenario of the seed catalog *)

(** Creating album 4 is answered with 201 and the album; it can then be
    fetched; creating it a second time is answered with 409 and changes
    nothing. *)
Example scenario_kind_of_blue :
  let after_post := snd (serve (POST_albums kind_of_blue_body) albums) in
  serve (POST_albums kind_of_blue_body) albums
  = ({| code := 201; content := Album kind_of_blue |},
     albums ++ [kind_of_blue])
  /\ serve (GET_albums_id "4") after_post
     = ({| code := 200; content := Album kind_of_blue |}, after_post)
  /\ serve (POST_albums kind_of_blue_body) after_post
     = ({| code := 409; content := ErrResponse (Code AlreadyExists) |},
        after_post).
Proof. repeat split. Qed.

(** * Further properties of the interactors *)

(** ** How the loops see an extended catalog *)

Section Extension.

Variable in_ : album.

Lemma checkUnique_app (front back : list album) :
  checkUnique (front ++ back) in_
  = match checkUnique front in_ with
    | Some e => Some e
    | None => checkUnique back in_
    end.
Proof.
  induction front as [|a rest IH]; simpl; [reflexivity|].
  destruct (String.eqb (ID a) (ID in_)); [reflexivity | exact IH].
Qed.

Variable key : getAlbumByIDInput.

Lemma lookupLoop_app (front back : list album) :
  lookupLoop (front ++ back) key
  = match lookupLoop front key with
    | Ok a => Ok a
    | Err _ => lookupLoop back key
    end.
Proof.
  induction front as [|a rest IH]; simpl; [reflexivity|].
  destruct (String.eqb (ID a) (pathID key)); [reflexivity | exact IH].
Qed.

(** The loop finds an album exactly when the id is one of the catalog. *)
Lemma lookupLoop_Ok_iff (catalog : list album) :
  (exists a, lookupLoop catalog key = Ok a)
  <-> In (pathID key) (map ID catalog).
Proof.
  induction catalog as [|a rest IH]; simpl.
  - split; [intros [a H]; discriminate | intros []].
  - destruct (String.eqb_spec (ID a) (pathID key)) as [Heq|Hne].
    + split; [intros _; left; exact Heq | intros _; exists a; reflexivity].
    + rewrite IH. split; [intros H; right; exact H|].
      intros [H|H]; [contradiction | exact H].
Qed.

End Extension.

(** Every call extends the catalog at its end, by at most one album. *)
Lemma after_extends (c : call) (catalog : list album) :
  exists added, after c catalog = catalog ++ added
                /\ (List.length added <= 1)%nat.
Proof.
  destruct c as [|key|in_]; simpl;
    try (exists []; rewrite app_nil_r; split; [reflexivity | simpl; lia]).
  unfold postAlbums. destruct (checkUnique catalog in_); simpl.
  - exists []. rewrite app_nil_r. split; [reflexivity | simpl; lia].
  - exists [in_]. split; [reflexivity | simpl; lia].
Qed.

Lemma afterAll_extends (cs : list call) (catalog : list album) :
  exists added, afterAll cs catalog = catalog ++ added
                /\ (List.length added <= List.length cs)%nat.
Proof.
  revert catalog.
  induction cs as [|c cs' IH]; intros catalog; simpl.
  - exists []. rewrite app_nil_r. split; [reflexivity | simpl; lia].
  - destruct (after_extends c catalog) as (one & -> & Hone).
    destruct (IH (catalog ++ one)) as (more & -> & Hmore).
    exists (one ++ more). rewrite app_assoc. split; [reflexivity|].
    rewrite length_app. lia.
Qed.

Lemma afterAll_app (cs cs' : list call) (catalog : list album) :
  afterAll (cs ++ cs') catalog = afterAll cs' (afterAll cs catalog).
Proof.
  revert catalog.
  induction cs as [|c rest IH]; intros catalog; simpl;
    [reflexivity | apply IH].
Qed.

(** The ids of the catalog after one call. *)
Lemma after_ids (c : call) (catalog : list album) (id : string) :
  In id (map ID (after c catalog))
  <-> In id (map ID catalog)
      \/ exists in_, c = CallPostAlbums in_ /\ ID in_ = id.
Proof.
  destruct c as [|key|in_]; simpl.
  - split; [intros H; left; exact H|].
    intros [H|(in_ & Hc & _)]; [exact H | discriminate].
  - split; [intros H; left; exact H|].
    intros [H|(in_ & Hc & _)]; [exact H | discriminate].
  - unfold postAlbums.
    destruct (checkUnique catalog in_) as [e|] eqn:Hloop; simpl.
    + split; [intros H; left; exact H|].
      intros [H|(in' & Hc & Hid)]; [exact H|].
      injection Hc as <-. subst id.
      destruct (checkUnique_culprit _ _ _ Hloop) as (a & Ha & <-).
      apply in_map. exact Ha.
    + rewrite map_app, in_app_iff. simpl. split.
      * intros [H|[H|[]]]; [left; exact H|].
        right. exists in_. split; [reflexivity | exact H].
      * intros [H|(in' & Hc & Hid)]; [left; exact H|].
        injection Hc as <-. right. left. exact Hid.
Qed.

Lemma afterAll_ids (cs : list call) (catalog : list album) (id : string) :
  In id (map ID (afterAll cs catalog))
  <-> In id (map ID catalog)
      \/ exists in_, In (CallPostAlbums in_) cs /\ ID in_ = id.
Proof.
  revert catalog.
  induction cs as [|c cs' IH]; intros catalog; simpl.
  - split; [intros H; left; exact H|].
    intros [H|(in_ & [] & _)]; exact H.
  - rewrite IH, after_ids. split.
    + intros [[H|(in_ & -> & Hid)]|(in_ & Hin & Hid)].
      * left; exact H.
      * right. exists in_. split; [left; reflexivity | exact Hid].
      * right. exists in_. split; [right; exact Hin | exact Hid].
    + intros [H|(in_ & [Hc|Hin] & Hid)].
      * left; left; exact H.
      * left; right. exists in_. split; [exact Hc | exact Hid].
      * right. exists in_. split; [exact Hin | exact Hid].
Qed.

(** An album that a lookup returns is returned by the lookup on every
    extension of the catalog. *)
Lemma lookupLoop_afterAll (cs : list call) (catalog : list album)
  (key : getAlbumByIDInput) (a : album) :
  lookupLoop catalog key = Ok a ->
  lookupLoop (afterAll cs catalog) key = Ok a.
Proof.
  intros Hfound.
  destruct (afterAll_extends cs catalog) as (added & -> & _).
  rewrite lookupLoop_app, Hfound. reflexivity.
Qed.

Lemma lookupLoop_Err_iff (catalog : list album) (key : getAlbumByIDInput) :
  lookupLoop catalog key = Err (Wrap "album not found" NotFound)
  <-> ~ In (pathID key) (map ID catalog).
Proof.
  rewrite <- lookupLoop_Ok_iff. split.
  - intros Herr [a Hok]. congruence.
  - intros Hnone. destruct key as [id].
    destruct (lookupLoop_cases id catalog)
      as [(before & a & after & _ & _ & _ & Hok) | (_ & Herr)];
      [exfalso; apply Hnone; exists a; exact Hok | exact Herr].
Qed.

(** ** Ids, once taken, stay taken *)

(** X1. Once [postAlbums] was called on an album, whether the call
    succeeded or not and whatever calls follow, every later [postAlbums] on
    an album with that id returns [status.AlreadyExists] and leaves the
    catalog as it is. *)
Theorem posted_id_stays_taken (catalog : list album) (in_ in' : album)
  (cs : list call) :
  ID in' = ID in_ ->
  postAlbums in' (afterAll (CallPostAlbums in_ :: cs) catalog)
  = (Err (Code AlreadyExists), afterAll (CallPostAlbums in_ :: cs) catalog).
Proof.
  intros Hid. unfold postAlbums. rewrite checkUnique_taken; [reflexivity|].
  assert (In (ID in') (map ID (afterAll (CallPostAlbums in_ :: cs) catalog)))
    as Hin.
  { apply afterAll_ids. right. exists in_.
    split; [left; reflexivity | symmetry; exact Hid]. }
  apply in_map_iff in Hin. destruct Hin as (a & Ha & Hin).
  exists a. split; assumption.
Qed.

Lemma posted_id_stays_taken_witness :
  ID untitled = ID kind_of_blue
  /\ postAlbums untitled
       (afterAll [CallPostAlbums kind_of_blue; CallGetAlbums] albums)
     = (Err (Code AlreadyExists), albums ++ [kind_of_blue]).
Proof.
  split; [reflexivity|].
  exact (posted_id_stays_taken albums kind_of_blue untitled [CallGetAlbums]
           eq_refl).
Defined.

(** X2. An album that [getAlbumByID] returns for an id is the album it
    returns for that id after every further sequence of interactor calls:
    no call replaces, removes or shadows a stored album. *)
Theorem lookup_is_stable (catalog : list album) (key : getAlbumByIDInput)
  (a : album) (cs : list call) :
  fst (getAlbumByID key catalog) = Ok a ->
  getAlbumByID key (afterAll cs catalog) = (Ok a, afterAll cs catalog).
Proof.
  unfold getAlbumByID. simpl. intros Hfound.
  rewrite (lookupLoop_afterAll cs catalog key a Hfound). reflexivity.
Qed.

Lemma lookup_is_stable_witness :
  fst (getAlbumByID {| pathID := "2" |} albums) = Ok jeru
  /\ getAlbumByID {| pathID := "2" |}
       (afterAll [CallPostAlbums jeru_again; CallPostAlbums kind_of_blue]
          albums)
     = (Ok jeru, albums ++ [kind_of_blue]).
Proof.
  split; [reflexivity|].
  exact (lookup_is_stable albums {| pathID := "2" |} jeru
           [CallPostAlbums jeru_again; CallPostAlbums kind_of_blue] eq_refl).
Defined.

(** X3. After a sequence of interactor calls, [getAlbumByID] returns the
    "not found" error for an id exactly when no album of the initial catalog
    has that id and [postAlbums] was never called on an album with it. *)
Theorem not_found_iff_never_posted (cs : list call) (catalog : list album)
  (id : string) :
  fst (getAlbumByID {| pathID := id |} (afterAll cs catalog))
  = Err (Wrap "album not found" NotFound)
  <-> (~ In id (map ID catalog)
       /\ forall in_, In (CallPostAlbums in_) cs -> ID in_ <> id).
Proof.
  unfold getAlbumByID. simpl.
  rewrite lookupLoop_Err_iff, afterAll_ids. simpl. split.
  - intros Hnone. split.
    + intros Hin. apply Hnone. left. exact Hin.
    + intros in_ Hin Hid. apply Hnone. right. exists in_. split; assumption.
  - intros [Hcat Hcs] [Hin|(in_ & Hin & Hid)].
    + exact (Hcat Hin).
    + exact (Hcs in_ Hin Hid).
Qed.

(** X4. The first album posted with an id that is not in the catalog is the
    one [getAlbumByID] returns for that id from then on: later posts with the
    same id do not overwrite it. *)
Theorem first_post_wins (catalog : list album) (a : album)
  (before later : list call) :
  ~ In (ID a) (map ID catalog) ->
  (forall in_, In (CallPostAlbums in_) before -> ID in_ <> ID a) ->
  getAlbumByID {| pathID := ID a |}
    (afterAll (before ++ CallPostAlbums a :: later) catalog)
  = (Ok a, afterAll (before ++ CallPostAlbums a :: later) catalog).
Proof.
  intros Hcat Hbefore. unfold getAlbumByID. f_equal.
  rewrite afterAll_app. simpl.
  apply lookupLoop_afterAll.
  assert (forall b, In b (afterAll before catalog) -> ID b <> ID a)
    as Hfresh.
  { intros b Hb Hid.
    assert (In (ID a) (map ID (afterAll before catalog))) as Hin
      by (rewrite <- Hid; apply in_map; exact Hb).
    apply afterAll_ids in Hin. destruct Hin as [Hin|(in_ & Hin & Hid')].
    - exact (Hcat Hin).
    - exact (Hbefore in_ Hin Hid'). }
  rewrite (postAlbums_fresh _ a Hfresh). simpl.
  apply lookupLoop_first; [exact Hfresh | reflexivity].
Qed.

Lemma seed_has_no_4 : ~ In (ID kind_of_blue) (map ID albums).
Proof.
  simpl. intros H. repeat (destruct H as [H|H]; [discriminate|]). exact H.
Defined.

Lemma first_post_wins_witness :
  getAlbumByID {| pathID := "4" |}
    (afterAll [CallGetAlbums; CallPostAlbums kind_of_blue;
               CallPostAlbums untitled] albums)
  = (Ok kind_of_blue, albums ++ [kind_of_blue]).
Proof.
  apply (first_post_wins albums kind_of_blue [CallGetAlbums]
           [CallPostAlbums untitled] seed_has_no_4).
  intros in_ [H|[]]. discriminate.
Defined.

(** X5. The catalog is append-only: after every sequence of interactor
    calls the initial catalog is still there, album by album at the same
    positions, and the catalog has grown by at most one album per call. *)
Theorem catalog_is_append_only (cs : list call) (catalog : list album) :
  firstn (List.length catalog) (afterAll cs catalog) = catalog
  /\ (forall i a, nth_error catalog i = Some a ->
                  nth_error (afterAll cs catalog) i = Some a)
  /\ (List.length catalog <= List.length (afterAll cs catalog)
      <= List.length catalog + List.length cs)%nat.
Proof.
  destruct (afterAll_extends cs catalog) as (added & -> & Hadded).
  split; [|split].
  - rewrite firstn_app, Nat.sub_diag, firstn_all. simpl. apply app_nil_r.
  - intros i a Hi. rewrite nth_error_app1; [exact Hi|].
    apply nth_error_Some. congruence.
  - rewrite length_app. lia.
Qed.

(** ** Posts of different ids do not interfere *)

Lemma checkUnique_after_other (catalog : list album) (a b : album) :
  ID a <> ID b ->
  checkUnique (snd (postAlbums b catalog)) a = checkUnique catalog a.
Proof.
  intros Hne. unfold postAlbums.
  destruct (checkUnique catalog b); simpl; [reflexivity|].
  rewrite checkUnique_app. destruct (checkUnique catalog a); [reflexivity|].
  simpl. destruct (String.eqb_spec (ID b) (ID a)) as [Heq|_];
    [exfalso; exact (Hne (eq_sym Heq)) | reflexivity].
Qed.

Lemma lookupLoop_swap (catalog : list album) (a b : album)
  (key : getAlbumByIDInput) :
  ID a <> ID b ->
  lookupLoop ((catalog ++ [a]) ++ [b]) key
  = lookupLoop ((catalog ++ [b]) ++ [a]) key.
Proof.
  intros Hne. rewrite <- !app_assoc, !lookupLoop_app.
  destruct (lookupLoop catalog key); [reflexivity|]. simpl.
  destruct (String.eqb_spec (ID a) (pathID key)) as [Ha|_],
           (String.eqb_spec (ID b) (pathID key)) as [Hb|_];
    try reflexivity.
  exfalso. apply Hne. congruence.
Qed.

(** X6. Two posts of albums with different ids do not interfere: each
    returns the same result whether it comes first or second, the two orders
    lead to catalogs that hold the same albums (in a different order when
    both succeed), and [getAlbumByID] cannot tell the two catalogs apart. *)
Theorem posts_of_distinct_ids_commute (catalog : list album) (a b : album) :
  ID a <> ID b ->
  fst (postAlbums a (after (CallPostAlbums b) catalog))
  = fst (postAlbums a catalog)
  /\ fst (postAlbums b (after (CallPostAlbums a) catalog))
     = fst (postAlbums b catalog)
  /\ Permutation (afterAll [CallPostAlbums a; CallPostAlbums b] catalog)
       (afterAll [CallPostAlbums b; CallPostAlbums a] catalog)
  /\ (forall key,
      fst (getAlbumByID key
             (afterAll [CallPostAlbums a; CallPostAlbums b] catalog))
      = fst (getAlbumByID key
               (afterAll [CallPostAlbums b; CallPostAlbums a] catalog))).
Proof.
  intros Hne.
  assert (ID b <> ID a) as Hne' by (intros H; exact (Hne (eq_sym H))).
  pose proof (checkUnique_after_other catalog a b Hne) as Hab.
  pose proof (checkUnique_after_other catalog b a Hne') as Hba.
  simpl. unfold postAlbums at 1 3 5 7 9 11.
  rewrite Hab, Hba. unfold postAlbums.
  destruct (checkUnique catalog a) as [ea|] eqn:Ha,
           (checkUnique catalog b) as [eb|] eqn:Hb; simpl;
    rewrite ?Ha, ?Hb; simpl;
    rewrite ?checkUnique_app, ?Ha, ?Hb; simpl.
  all: destruct (String.eqb_spec (ID a) (ID b)) as [Heq|_];
    [exfalso; exact (Hne Heq)|].
  all: destruct (String.eqb_spec (ID b) (ID a)) as [Heq|_];
    [exfalso; exact (Hne' Heq)|].
  all: simpl; repeat split; try apply Permutation_refl.
  - rewrite <- !app_assoc. apply Permutation_app_head. simpl.
    apply perm_swap.
  - intros key. apply lookupLoop_swap. exact Hne.
Qed.

Lemma posts_of_distinct_ids_commute_witness :
  ID kind_of_blue <> ID giant_steps
  /\ Permutation (albums ++ [kind_of_blue; giant_steps])
       (albums ++ [giant_steps; kind_of_blue]).
Proof.
  assert (ID kind_of_blue <> ID giant_steps) as Hne by discriminate.
  split; [exact Hne|].
  exact (proj1 (proj2 (proj2
           (posts_of_distinct_ids_commute albums kind_of_blue giant_steps
              Hne)))).
Defined.

(** ** Declared and returned errors *)

(** X7. The errors the three use cases declare with [SetExpectedErrors] are
    exactly the errors their interact functions return: [getAlbums] declares
    none and returns none, [postAlbums] declares and returns only
    [status.AlreadyExists], [getAlbumByID] only [status.NotFound]; every
    declared error is returned for some input; and a call that returns an
    error leaves the catalog as it was. *)
Theorem expected_errors_are_exact :
  (errors_declared getAlbums_u /\ errors_reachable getAlbums_u)
  /\ (errors_declared postAlbums_u /\ errors_reachable postAlbums_u)
  /\ (errors_declared getAlbumByID_u /\ errors_reachable getAlbumByID_u).
Proof.
  repeat split.
  - discriminate.
  - simpl in H. injection H as _ H. symmetry; exact H.
  - intros s [].
  - simpl in H. destruct (postAlbums_Err _ _ _ _ H) as [-> _].
    left. reflexivity.
  - simpl in H. exact (proj2 (postAlbums_Err _ _ _ _ H)).
  - intros s [<-|[]].
    exists jeru_again, albums, (Code AlreadyExists). split; reflexivity.
  - simpl in H. unfold getAlbumByID in H. injection H as Hloop _.
    destruct i as [id].
    destruct (lookupLoop_cases id catalog)
      as [(before & a & after & _ & _ & _ & Hok) | (_ & Herr)].
    + rewrite Hok in Hloop. discriminate.
    + rewrite Herr in Hloop. injection Hloop as <-. left. reflexivity.
  - simpl in H. unfold getAlbumByID in H. injection H as _ H.
    symmetry; exact H.
  - intros s [<-|[]].
    exists {| pathID := "9" |}, albums, (Wrap "album not found" NotFound).
    split; reflexivity.
Qed.

(** ** What validation guarantees of the catalog *)





(** ** Encoding an album and decoding it again *)






(** * The catalog as a slice *)

(** ** Stores into arrays *)

Lemma length_store (i : nat) (x : album) (l : list album) :
  List.length (store i x l) = List.length l.
Proof.
  revert i. induction l as [|y rest IH]; intros [|j]; simpl;
    try reflexivity.
  rewrite IH. reflexivity.
Qed.

Lemma firstn_store_ge (n i : nat) (x : album) (l : list album) :
  (n <= i)%nat -> firstn n (store i x l) = firstn n l.
Proof.
  revert n i. induction l as [|y rest IH]; intros n i Hle.
  - destruct i; reflexivity.
  - destruct n as [|m]; [reflexivity|].
    destruct i as [|j]; [lia|]. simpl. rewrite IH by lia. reflexivity.
Qed.

Lemma firstn_store_at (i : nat) (x : album) (l : list album) :
  (i < List.length l)%nat -> firstn (S i) (store i x l) = firstn i l ++ [x].
Proof.
  revert i. induction l as [|y rest IH]; intros i Hlt; simpl in Hlt.
  - lia.
  - destruct i as [|j]; [reflexivity|].
    simpl. simpl in IH. rewrite IH by lia. reflexivity.
Qed.

Lemma length_storeIn (addr i : nat) (x : album) (h : heap) :
  List.length (storeIn addr i x h) = List.length h.
Proof.
  revert addr. induction h as [|a rest IH]; intros [|k]; simpl;
    try reflexivity.
  rewrite IH. reflexivity.
Qed.

Lemma nth_storeIn_same (addr i : nat) (x : album) (h : heap) :
  nth addr (storeIn addr i x h) [] = store i x (nth addr h []).
Proof.
  revert addr. induction h as [|a rest IH]; intros [|k]; simpl;
    try reflexivity.
  apply IH.
Qed.

Lemma nth_storeIn_other (addr addr' i : nat) (x : album) (h : heap) :
  addr' <> addr -> nth addr' (storeIn addr i x h) [] = nth addr' h [].
Proof.
  revert addr addr'.
  induction h as [|a rest IH]; intros [|k] [|k'] Hne; simpl;
    try reflexivity.
  - contradiction.
  - apply IH. congruence.
Qed.

(** ** One append *)

Section SliceModel.

Variable slack : nat -> nat.

(** On a well-formed state [append] adds its argument after the elements of
    the catalog, in place or in a new array. *)
Lemma slice_append_elements (st : state) (x : album) :
  wf st ->
  wf {| arrays := fst (slice_append slack (arrays st) (albums_var st) x);
        albums_var :=
          snd (slice_append slack (arrays st) (albums_var st) x) |}
  /\ elements (fst (slice_append slack (arrays st) (albums_var st) x))
       (snd (slice_append slack (arrays st) (albums_var st) x))
     = elements (arrays st) (albums_var st) ++ [x].
Proof.
  destruct st as [h [addr n c]]. unfold wf, slice_append.
  cbn [arrays albums_var array len cap].
  intros (Haddr & Hlen & Hcap).
  destruct (Nat.ltb_spec n c) as [Hroom|Hfull];
    cbn [fst snd arrays albums_var array len cap]; unfold elements;
    cbn [array len cap].
  - rewrite length_storeIn, nth_storeIn_same, length_store.
    repeat split; try assumption; try lia.
    apply firstn_store_at. lia.
  - assert (n = c) as -> by lia.
    assert (firstn c (nth addr h []) = nth addr h []) as Hall
      by (apply firstn_all2; lia).
    rewrite length_app, nth_middle, Hall.
    repeat split; try (simpl; lia).
    + rewrite length_app. simpl. rewrite repeat_length. lia.
    + replace (S c) with (List.length (nth addr h []) + 1)%nat by lia.
      rewrite firstn_app_2. reflexivity.
Qed.

(** A header handed out earlier reads the same elements after an append of
    the catalog. *)
Lemma slice_append_covered (st : state) (x : album) (snap : slice) :
  covered st snap ->
  covered
    {| arrays := fst (slice_append slack (arrays st) (albums_var st) x);
       albums_var :=
         snd (slice_append slack (arrays st) (albums_var st) x) |} snap
  /\ elements (fst (slice_append slack (arrays st) (albums_var st) x)) snap
     = elements (arrays st) snap.
Proof.
  destruct st as [h [addr n c]], snap as [saddr sn sc].
  unfold covered, slice_append.
  cbn [arrays albums_var array len cap].
  intros (Haddr & Hshare).
  destruct (Nat.ltb n c);
    cbn [fst snd arrays albums_var array len cap]; unfold elements;
    cbn [array len cap].
  - rewrite length_storeIn. split.
    + split; [exact Haddr | intros Heq; specialize (Hshare Heq); lia].
    + destruct (Nat.eq_dec saddr addr) as [->|Hne].
      * rewrite nth_storeIn_same. apply firstn_store_ge.
        exact (Hshare eq_refl).
      * rewrite nth_storeIn_other by exact Hne. reflexivity.
  - rewrite length_app. split.
    + split; [simpl; lia | intros Heq; lia].
    + rewrite app_nth1 by exact Haddr. reflexivity.
Qed.

End SliceModel.

(** ** Calls on the slice and calls on the list *)

Section SliceRuns.

Variable slack : nat -> nat.

Lemma after_s_refines (c : call) (st : state) :
  wf st ->
  wf (after_s slack c st)
  /\ catalogOf (after_s slack c st) = after c (catalogOf st).
Proof.
  intros Hwf. destruct c as [|key|in_]; simpl; try (split; [exact Hwf|]);
    try reflexivity.
  unfold postAlbums_s, postAlbums, catalogOf.
  destruct (checkUnique (elements (arrays st) (albums_var st)) in_);
    [split; [exact Hwf | reflexivity]|].
  destruct (slice_append_elements slack st in_ Hwf) as [Hwf' Hel].
  destruct (slice_append slack (arrays st) (albums_var st) in_) as [h s].
  exact (conj Hwf' Hel).
Qed.

Lemma afterAll_s_refines (cs : list call) (st : state) :
  wf st ->
  wf (afterAll_s slack cs st)
  /\ catalogOf (afterAll_s slack cs st) = afterAll cs (catalogOf st).
Proof.
  revert st. induction cs as [|c cs' IH]; intros st Hwf; simpl.
  - split; [exact Hwf | reflexivity].
  - destruct (after_s_refines c st Hwf) as [Hwf' <-]. exact (IH _ Hwf').
Qed.

Lemma after_s_covered (c : call) (st : state) (snap : slice) :
  covered st snap ->
  covered (after_s slack c st) snap
  /\ elements (arrays (after_s slack c st)) snap
     = elements (arrays st) snap.
Proof.
  intros Hcov. destruct c as [|key|in_]; simpl;
    try (split; [exact Hcov | reflexivity]).
  unfold postAlbums_s.
  destruct (checkUnique (elements (arrays st) (albums_var st)) in_);
    [split; [exact Hcov | reflexivity]|].
  destruct (slice_append_covered slack st in_ snap Hcov) as [Hcov' Hel].
  destruct (slice_append slack (arrays st) (albums_var st) in_) as [h s].
  exact (conj Hcov' Hel).
Qed.

Lemma afterAll_s_covered (cs : list call) (st : state) (snap : slice) :
  covered st snap ->
  elements (arrays (afterAll_s slack cs st)) snap
  = elements (arrays st) snap.
Proof.
  revert st. induction cs as [|c cs' IH]; intros st Hcov; simpl.
  - reflexivity.
  - destruct (after_s_covered c st snap Hcov) as [Hcov' <-].
    exact (IH _ Hcov').
Qed.

End SliceRuns.

Lemma init_wf : wf init.
Proof. unfold wf, init. simpl. lia. Qed.

Lemma wf_covers_itself (st : state) : wf st -> covered st (albums_var st).
Proof. intros (Haddr & _ & _). split; [exact Haddr | intros _; lia]. Qed.

(** X10. Whatever sequence of interactor calls is made from the start of
    the process, and however much spare capacity the runtime gives a grown
    array, the elements of the slice variable [albums] are the catalog of
    the list model, and the three interact functions return on the slice
    what they return on that list. *)
Theorem slice_refines_list (slack : nat -> nat) (cs : list call) :
  wf (afterAll_s slack cs init)
  /\ catalogOf (afterAll_s slack cs init) = afterAll cs albums
  /\ (forall in_,
      fst (postAlbums_s slack in_ (afterAll_s slack cs init))
      = fst (postAlbums in_ (afterAll cs albums))
      /\ catalogOf (snd (postAlbums_s slack in_ (afterAll_s slack cs init)))
         = snd (postAlbums in_ (afterAll cs albums)))
  /\ (forall key,
      fst (getAlbumByID_s key (afterAll_s slack cs init))
      = fst (getAlbumByID key (afterAll cs albums)))
  /\ (exists s,
      fst (getAlbums_s (afterAll_s slack cs init)) = Ok s
      /\ Ok (elements (arrays (afterAll_s slack cs init)) s)
         = fst (getAlbums (afterAll cs albums))).
Proof.
  destruct (afterAll_s_refines slack cs init init_wf) as [Hwf Hcat].
  change (catalogOf init) with albums in Hcat.
  split; [exact Hwf|]. split; [exact Hcat|]. split; [|split].
  - intros in_. split.
    + unfold postAlbums_s, postAlbums. fold (catalogOf (afterAll_s slack cs init)).
      rewrite Hcat. destruct (checkUnique (afterAll cs albums) in_);
        [reflexivity|].
      destruct (slice_append _ _ _ _); reflexivity.
    + rewrite <- Hcat.
      exact (proj2 (after_s_refines slack (CallPostAlbums in_) _ Hwf)).
  - intros key. unfold getAlbumByID_s, getAlbumByID. simpl.
    fold (catalogOf (afterAll_s slack cs init)). rewrite Hcat. reflexivity.
  - exists (albums_var (afterAll_s slack cs init)). split; [reflexivity|].
    simpl. fold (catalogOf (afterAll_s slack cs init)). rewrite Hcat.
    reflexivity.
Qed.

(** X11. The slice that [getAlbums] hands out shares its array with the
    catalog, and still it is a snapshot: after any later sequence of
    interactor calls it reads exactly the albums the catalog had when
    [getAlbums] was called. *)
Theorem listing_is_a_snapshot (slack : nat -> nat) (cs later : list call) :
  match fst (getAlbums_s (afterAll_s slack cs init)) with
  | Ok s =>
      elements
        (arrays (afterAll_s slack later (afterAll_s slack cs init))) s
      = afterAll cs albums
  | Err _ => False
  end.
Proof.
  simpl.
  destruct (afterAll_s_refines slack cs init init_wf) as [Hwf Hcat].
  rewrite (afterAll_s_covered slack later _ _ (wf_covers_itself _ Hwf)).
  exact Hcat.
Qed.

(** With a doubling runtime the second of two posts is stored in place, in
    the array that the listing made between the two posts still reads. *)
Example posts_share_an_array :
  array (albums_var (afterAll_s doubling [CallPostAlbums kind_of_blue] init))
  = array
      (albums_var
         (afterAll_s doubling
            [CallPostAlbums kind_of_blue; CallPostAlbums giant_steps] init))
  /\ elements
       (arrays
          (afterAll_s doubling
             [CallPostAlbums kind_of_blue; CallPostAlbums giant_steps] init))
       (albums_var (afterAll_s doubling [CallPostAlbums kind_of_blue] init))
     = albums ++ [kind_of_blue].
Proof. split; reflexivity. Qed.

(** ** The two loops agree *)

(** X12. The uniqueness loop of [postAlbums] and the lookup loop of
    [getAlbumByID] agree on every catalog: a post of an album is refused
    with [status.AlreadyExists] exactly when a lookup of its id finds an
    album, and it succeeds exactly when that lookup returns the "not found"
    error. *)
Theorem post_conflicts_iff_lookup_finds (catalog : list album)
  (in_ : album) :
  (fst (postAlbums in_ catalog) = Err (Code AlreadyExists)
   <-> exists a, fst (getAlbumByID {| pathID := ID in_ |} catalog) = Ok a)
  /\ (fst (postAlbums in_ catalog) = Ok in_
      <-> fst (getAlbumByID {| pathID := ID in_ |} catalog)
          = Err (Wrap "album not found" NotFound)).
Proof.
  unfold getAlbumByID, postAlbums. cbn [fst].
  rewrite lookupLoop_Ok_iff, lookupLoop_Err_iff. cbn [pathID].
  destruct (checkUnique catalog in_) as [e|] eqn:Hloop; cbn [fst].
  - assert (In (ID in_) (map ID catalog)) as Hin.
    { destruct (checkUnique_culprit _ _ _ Hloop) as (a & Ha & <-).
      apply in_map. exact Ha. }
    rewrite (checkUnique_error _ _ _ Hloop). split.
    + split; [intros _; exact Hin | reflexivity].
    + split; [discriminate | intros Hnot; contradiction].
  - assert (~ In (ID in_) (map ID catalog)) as Hnot.
    { intros Hin. apply in_map_iff in Hin. destruct Hin as (a & Hid & Ha).
      exact (checkUnique_None _ _ Hloop a Ha Hid). }
    split.
    + split; [discriminate | intros Hin; contradiction].
    + split; [intros _; exact Hnot | reflexivity].
Qed.
